(** * Day 1, part 2: the first repeated frequency

    A shallow embedding of [01/solution_2.py] and the properties of its
    single routine [find_repeated_frequency].

    The script is read as Python 3: [map] is lazy, so [int] is applied to
    a line only when the loop draws it, and integers are unbounded.  The
    file object is modelled by the list of lines that iterating over it
    yields; a line is a sequence of code points below 256. *)

From Stdlib Require Import ZArith Lia List String Ascii DecimalString.
From stdpp Require Import base decidable option list sets gmap.

(** ** The builtin [int] on a line of text *)

Module PyInt.

Local Open Scope Z_scope.

(** Code points below 256 that Python treats as white space. *)
Definition is_space (c : ascii) : bool :=
  let n := nat_of_ascii c in
  ((9 <=? n) && (n <=? 13) || (28 <=? n) && (n <=? 32)
   || (n =? 133) || (n =? 160))%nat.

Definition is_digit (c : ascii) : bool :=
  let n := nat_of_ascii c in ((48 <=? n) && (n <=? 57))%nat.

Definition digit_val (c : ascii) : Z := Z.of_nat (nat_of_ascii c) - 48.

Fixpoint lstrip (s : list ascii) : list ascii :=
  match s with
  | c :: r => if is_space c then lstrip r else s
  | [] => []
  end.

Fixpoint rstrip (s : list ascii) : list ascii :=
  match s with
  | [] => []
  | c :: r =>
      match rstrip r with
      | [] => if is_space c then [] else [c]
      | r' => c :: r'
      end
  end.

Definition strip (s : list ascii) : list ascii := rstrip (lstrip s).

(** Digits of a base 10 literal: at least one digit, single underscores
    allowed between two digits.  [after_digit] tells whether the
    previous character was a digit. *)
Fixpoint digits (after_digit : bool) (acc : Z) (s : list ascii) : option Z :=
  match s with
  | [] => if after_digit then Some acc else None
  | c :: r =>
      if is_digit c then digits true (10 * acc + digit_val c) r
      else if Ascii.eqb c "_" then
             if after_digit then digits false acc r else None
           else None
  end.

(** [int(s)] for a string [s]: [None] stands for [ValueError]. *)
Definition int (s : string) : option Z :=
  match strip (list_ascii_of_string s) with
  | [] => None
  | c :: r =>
      if Ascii.eqb c "+" then digits false 0 r
      else if Ascii.eqb c "-" then Z.opp <$> digits false 0 r
      else digits false 0 (c :: r)
  end.

(** [str] of what [find_repeated_frequency] returns. *)
Definition str (v : option Z) : string :=
  match v with
  | Some z => NilZero.string_of_int (Z.to_int z)
  | None => "None"
  end.

End PyInt.

(** ** Iterators *)

Inductive exn := OSError | ValueError.

Inductive draw (S : Type) :=
| Yield (n : Z) (s : S)
| StopIteration
| Raise (e : exn).
Arguments Yield {S} n s.
Arguments StopIteration {S}.
Arguments Raise {S} e.

(** [map(int, f)]: the lines not yet read; [int] runs when a line is drawn. *)
Definition map_int_next (src : list string) : draw (list string) :=
  match src with
  | [] => StopIteration
  | ln :: rest =>
      match PyInt.int ln with
      | Some n => Yield n rest
      | None => Raise ValueError
      end
  end.

(** [itertools.cycle]: a first pass over the source that saves what it
    yields, then the saved elements again and again. *)
Inductive cycle_state :=
| FirstPass (src : list string) (saved : list Z)
| Replay (saved cur : list Z).

Definition cycle (src : list string) : cycle_state := FirstPass src [].

Definition restart (saved : list Z) : draw cycle_state :=
  match saved with
  | [] => StopIteration
  | n :: cur => Yield n (Replay saved cur)
  end.

Definition cycle_next (c : cycle_state) : draw cycle_state :=
  match c with
  | FirstPass src saved =>
      match map_int_next src with
      | Yield n src' => Yield n (FirstPass src' (saved ++ [n]))
      | StopIteration => restart saved
      | Raise e => Raise e
      end
  | Replay saved (n :: cur) => Yield n (Replay saved cur)
  | Replay saved [] => restart saved
  end.

(** ** The accumulation loop *)

Record state := State { sum : Z; seen : gset Z; it : cycle_state }.

(** What a call ends with: a returned value ([None] is Python's implicit
    [None] when the loop runs out of elements) or an exception. *)
Inductive result := Return (v : option Z) | Raised (e : exn).

Inductive step_result := Continue (s : state) | Done (r : result).

(** One turn of the [for] loop: draw [n], test, record, add. *)
Definition step (s : state) : step_result :=
  match cycle_next (it s) with
  | StopIteration => Done (Return None)
  | Raise e => Done (Raised e)
  | Yield n it' =>
      if decide (sum s ∈ seen s) then Done (Return (Some (sum s)))
      else Continue (State (sum s + n)%Z ({[sum s]} ∪ seen s) it')
  end.

Definition init (lines : list string) : state := State 0%Z ∅ (cycle lines).

(** The loop with a bound on the number of turns; [None] when the bound
    is reached before the loop ends. *)
Fixpoint loop (fuel : nat) (s : state) : option result :=
  match fuel with
  | O => None
  | S fuel' =>
      match step s with
      | Done r => Some r
      | Continue s' => loop fuel' s'
      end
  end.

Definition find_repeated_frequency (fuel : nat) (lines : list string)
  : option result :=
  loop fuel (init lines).

(** The state at the start of turn [i] (counted from 0), if the loop
    gets there. *)
Fixpoint iterate (i : nat) (s : state) : option state :=
  match i with
  | O => Some s
  | S i' =>
      match step s with
      | Done _ => None
      | Continue s' => iterate i' s'
      end
  end.

(** The cumulative sums examined at the turns before turn [i]. *)
Definition examined (i : nat) (s : state) : list Z :=
  omap (fun j => sum <$> iterate j s) (seq 0 i).

(** The loop as a relation, without a bound. *)
Inductive exec : state -> result -> Prop :=
| exec_done s r : step s = Done r -> exec s r
| exec_continue s s' r : step s = Continue s' -> exec s' r -> exec s r.

(** The script: [input] is [None] when the file cannot be opened.  The
    outcome is the exception that ends the process or the text printed. *)
Definition program (fuel : nat) (input : option (list string))
  : option (exn + string) :=
  match input with
  | None => Some (inl OSError)
  | Some lines =>
      match find_repeated_frequency fuel lines with
      | None => None
      | Some (Raised e) => Some (inl e)
      | Some (Return v) => Some (inr (PyInt.str v ++ String "010" EmptyString)%string)
      end
  end.

(** ** The contract, in the words of the specification *)

(** [parses lines l]: every line is an integer literal, and [l] is the
    sequence of their values. *)
Definition parses (lines : list string) (l : list Z) : Prop :=
  Forall2 (fun ln n => PyInt.int ln = Some n) lines l.

(** Element [i] of the sequence repeated without end. *)
Definition cyc (l : list Z) (i : nat) : Z :=
  default 0%Z (l !! (i mod length l)).

(** The cumulative sum after [i] additions; [csum l 0] is the initial 0. *)
Fixpoint csum (l : list Z) (i : nat) : Z :=
  match i with
  | O => 0%Z
  | S i' => (csum l i' + cyc l i')%Z
  end.

(** The cumulative sums that come before the one of index [i]. *)
Definition sums_before (l : list Z) (i : nat) : gset Z :=
  list_to_set (csum l <$> seq 0 i).

(** [csum l k] has occurred earlier in the summation. *)
Definition repeated (l : list Z) (k : nat) : Prop :=
  exists j, j < k /\ csum l j = csum l k.

(** [k] is the index of the first cumulative sum that has occurred earlier. *)
Definition first_repeat (l : list Z) (k : nat) : Prop :=
  repeated l k /\ forall k', k' < k -> ~ repeated l k'.

(** The sum of the whole sequence: what one pass adds to the running sum. *)
Definition total (l : list Z) : Z := foldr Z.add 0%Z l.

(** The call ends within some bound. *)
Definition terminates (lines : list string) : Prop :=
  exists fuel r, find_repeated_frequency fuel lines = Some r.

(** One more turn from a state the loop has reached. *)
Definition advance (s : state) : option state :=
  match step s with
  | Continue s' => Some s'
  | Done _ => None
  end.

(** [pos lines l i c]: the iterator [c] over [lines], whose saved elements
    are taken from [l], is about to yield the element of index [i]; it
    replays the saved elements once the first pass over [l] is over. *)
Definition pos (lines : list string) (l : list Z) (i : nat) (c : cycle_state)
  : Prop :=
  match c with
  | FirstPass src saved =>
      i <= length l /\ src = drop i lines /\ saved = take i l
  | Replay saved cur =>
      saved = l /\ length l < i /\
      exists m, m <= length l /\ cur = drop m l /\
                i mod length l = m mod length l
  end.

(** The draw of index [i] succeeds: it is in the parsed part of the first
    pass, or the whole input has been parsed and is not empty. *)
Definition can_draw (lines : list string) (l : list Z) (i : nat) : Prop :=
  i < length l \/ (length lines = length l /\ l <> []).

(** What the loop state is at the start of turn [i]. *)
Definition Inv (lines : list string) (l : list Z) (i : nat) (s : state) : Prop :=
  sum s = csum l i /\ seen s = sums_before l i /\ pos lines l i (it s).

(** Line [j] is the first one that [int] rejects; [pre] holds the values
    of the lines before it. *)
Definition first_bad (lines : list string) (j : nat) (pre : list Z) : Prop :=
  parses (take j lines) pre /\
  exists ln, lines !! j = Some ln /\ PyInt.int ln = None.

(** Written integers: a sign, at least one digit, the end of the line. *)
Module Literal.

Import PyInt.








End Literal.

(** ** Inputs used as examples *)

(** A line as iterating over the file yields it, with its end of line. *)
Definition line (text : string) : string :=
  (text ++ String "010" EmptyString)%string.

Definition input_repeat_2 : list string := line <$> ["+1"; "-2"; "+3"; "+1"]%string.
Definition input_back_to_0 : list string := line <$> ["+1"; "-1"]%string.
Definition input_zero : list string := [line "0"].
Definition input_one : list string := [line "+1"].
Definition input_three : list string := line <$> ["+1"; "-1"; "+5"]%string.
Definition input_late_garbage : list string :=
  line <$> ["+1"; "-1"; "+5"; "foo"]%string.
Definition input_early_garbage : list string :=
  line <$> ["+1"; "foo"; "-1"]%string.

(** ** The loop, turn by turn *)

#[local] Set Warnings "-clear-no-such-hyp".

Section Loop.

Implicit Types (s : state) (r : result) (i j fuel : nat).

Lemma iterate_S_r i s : iterate (S i) s = iterate i s ≫= advance.
Proof.
  revert s. induction i as [|i IH]; intros s.
  - simpl. unfold advance. by destruct (step s).
  - change (iterate (S (S i)) s)
      with (match step s with Done _ => None | Continue s' => iterate (S i) s' end).
    simpl. destruct (step s); [apply IH | done].
Qed.

Lemma iterate_add i j s : iterate (i + j) s = iterate i s ≫= iterate j.
Proof.
  revert s. induction i as [|i IH]; intros s; simpl; [done|].
  destruct (step s); [apply IH | done].
Qed.


Lemma loop_iterate i fuel s s' :
  iterate i s = Some s' -> loop (i + fuel) s = loop fuel s'.
Proof.
  revert s. induction i as [|i IH]; intros s; simpl.
  - intros H. by injection H as ->.
  - destruct (step s); [apply IH | done].
Qed.

Lemma loop_done i fuel s s' r :
  iterate i s = Some s' -> step s' = Done r -> i < fuel -> loop fuel s = Some r.
Proof.
  intros Hi Hs Hlt. replace fuel with (i + S (fuel - S i)) by lia.
  rewrite (loop_iterate _ _ _ _ Hi). simpl. by rewrite Hs.
Qed.

Lemma loop_Some fuel s r :
  loop fuel s = Some r ->
  exists i s', i < fuel /\ iterate i s = Some s' /\ step s' = Done r.
Proof.
  revert s. induction fuel as [|fuel IH]; intros s; simpl; [done|].
  destruct (step s) as [s1|r1] eqn:Hs.
  - intros H. destruct (IH _ H) as (i & s' & Hlt & Hi & Hd).
    exists (S i), s'. simpl. rewrite Hs. split; [lia | done].
  - intros H. injection H as ->. exists 0, s. split; [lia | done].
Qed.

Lemma loop_None fuel s :
  loop fuel s = None -> is_Some (iterate fuel s).
Proof.
  revert s. induction fuel as [|fuel IH]; intros s; simpl; [eauto|].
  destruct (step s); [apply IH | done].
Qed.


Lemma exec_det s r1 r2 : exec s r1 -> exec s r2 -> r1 = r2.
Proof.
  intros H1. revert r2.
  induction H1 as [s r Hs | s s' r Hs _ IH]; intros r2 H2;
    inversion H2 as [? ? Hs2 | ? s2 ? Hs2 H2']; subst;
    rewrite Hs in Hs2; try discriminate.
  - by injection Hs2.
  - injection Hs2 as <-. by apply IH.
Qed.

(** One turn only adds the examined sum to the set. *)
Lemma step_seen s s' :
  step s = Continue s' ->
  (sum s ∉ seen s) /\ seen s' = {[sum s]} ∪ seen s.
Proof.
  unfold step. destruct (cycle_next (it s)); [|done..].
  case_decide; [done|]. intros Hc. by injection Hc as <-.
Qed.

Lemma examined_S i s0 s :
  iterate i s0 = Some s -> examined (S i) s0 = examined i s0 ++ [sum s].
Proof.
  intros Hi. unfold examined. rewrite seq_S, omap_app. simpl.
  by rewrite Hi.
Qed.

Lemma seen_examined i s0 s :
  iterate i s0 = Some s ->
  seen s = list_to_set (examined i s0) ∪ seen s0.
Proof.
  revert s. induction i as [|i IH]; intros s.
  - intros H. injection H as ->. unfold examined. simpl. set_solver.
  - rewrite iterate_S_r. destruct (iterate i s0) as [s1|] eqn:Hi; [|done].
    intros H. simpl in H. unfold advance in H.
    destruct (step s1) as [s2|] eqn:Hs; [|done].
    injection H as <-. apply step_seen in Hs as [_ ->].
    rewrite (examined_S _ _ _ Hi), list_to_set_app_L, (IH _ eq_refl).
    set_solver.
Qed.

Lemma seen_mono i j s0 s s' :
  i <= j -> iterate i s0 = Some s -> iterate j s0 = Some s' ->
  seen s ⊆ seen s'.
Proof.
  intros Hle Hi Hj. replace j with (i + (j - i)) in Hj by lia.
  rewrite iterate_add, Hi in Hj. simpl in Hj.
  rewrite (seen_examined _ _ _ Hj). set_solver.
Qed.

Lemma earlier_fresh i j s0 s s' :
  j < i -> iterate j s0 = Some s' -> iterate i s0 = Some s ->
  sum s' ∉ seen s'.
Proof.
  intros Hlt Hj Hi. replace i with (j + S (i - S j)) in Hi by lia.
  rewrite iterate_add, Hj in Hi. simpl in Hi.
  destruct (step s') as [s1|] eqn:Hs; [|done].
  by apply step_seen in Hs as [? _].
Qed.

End Loop.

(** ** The cycled iterator against cyclic indexing *)

Lemma mod_succ i m n : i mod n = m mod n -> S i mod n = S m mod n.
Proof.
  intros H. replace (S i) with (i + 1) by lia.
  replace (S m) with (m + 1) by lia.
  rewrite (Nat.Div0.add_mod i), (Nat.Div0.add_mod m). by rewrite H.
Qed.

Lemma cyc_lookup (l : list Z) i n :
  l !! (i mod length l) = Some n -> cyc l i = n.
Proof. unfold cyc. by intros ->. Qed.

Lemma restart_pos lines (l : list Z) i :
  l <> [] -> length l <= i -> i mod length l = 0 ->
  exists c', restart l = Yield (cyc l i) c' /\ pos lines l (S i) c'.
Proof.
  intros Hne Hle Hi. destruct l as [|n cur]; [done|].
  exists (Replay (n :: cur) cur). split.
  - simpl. f_equal. symmetry. apply cyc_lookup. by rewrite Hi.
  - split; [done|]. split; [lia|]. exists 1. repeat split.
    + simpl. lia.
    + apply (mod_succ i 0). rewrite Hi. by rewrite Nat.Div0.mod_0_l.
Qed.

Section Cycle.

Variables (lines : list string) (l : list Z).
Hypothesis Hparse : parses (take (length l) lines) l.

Lemma replay_pos i cur m :
  m <= length l -> cur = drop m l -> i mod length l = m mod length l ->
  l <> [] -> length l < i ->
  exists c', cycle_next (Replay l cur) = Yield (cyc l i) c'
             /\ pos lines l (S i) c'.
Proof.
  intros Hm -> Hi Hne Hgt. destruct (decide (m < length l)) as [Hlt|Hge].
  - destruct (lookup_lt_is_Some_2 l m Hlt) as [n Hn].
    rewrite (drop_S _ _ _ Hn). exists (Replay l (drop (S m) l)). split.
    + simpl. f_equal. symmetry. apply cyc_lookup.
      by rewrite Hi, Nat.mod_small.
    + split; [done|]. split; [lia|]. exists (S m). repeat split; [lia|].
      by apply mod_succ.
  - assert (m = length l) as -> by lia. rewrite drop_all. simpl.
    apply restart_pos; [done | lia |]. rewrite Hi. apply Nat.Div0.mod_same.
Qed.

Lemma pos_next i c :
  can_draw lines l i -> pos lines l i c ->
  exists c', cycle_next c = Yield (cyc l i) c' /\ pos lines l (S i) c'.
Proof.
  intros Hdraw Hpos. destruct c as [src saved | saved cur].
  - destruct Hpos as (Hle & -> & ->).
    destruct (decide (i < length l)) as [Hlt|Hge].
    + destruct (lookup_lt_is_Some_2 l i Hlt) as [n Hn].
      destruct (Forall2_lookup_r _ _ _ _ _ Hparse Hn) as (ln & Hln & Hint).
      rewrite lookup_take_lt in Hln by done.
      rewrite (drop_S _ _ _ Hln).
      exists (FirstPass (drop (S i) lines) (take (S i) l)). split.
      * simpl. rewrite Hint. f_equal.
        -- symmetry. apply cyc_lookup. by rewrite Nat.mod_small.
        -- by rewrite (take_S_r _ _ _ Hn).
      * repeat split. lia.
    + destruct Hdraw as [?|[Hlen Hne]]; [lia|].
      assert (i = length l) as -> by lia.
      rewrite drop_ge by lia. rewrite take_ge by lia. simpl.
      apply restart_pos; [done | lia |]. apply Nat.Div0.mod_same.
  - destruct Hpos as (-> & Hgt & m & Hm & Hcur & Hi).
    apply (replay_pos i cur m); try done.
    destruct Hdraw as [Hlt|[_ ?]]; [lia | done].
Qed.

Lemma elem_of_sums_before v i :
  v ∈ sums_before l i <-> exists j, j < i /\ csum l j = v.
Proof.
  unfold sums_before. rewrite elem_of_list_to_set, list_elem_of_fmap.
  split.
  - intros (j & -> & Hj). apply elem_of_seq in Hj. exists j. split; [lia|done].
  - intros (j & Hj & <-). exists j. split; [done|]. apply elem_of_seq. lia.
Qed.

Lemma sums_before_S i : sums_before l (S i) = {[csum l i]} ∪ sums_before l i.
Proof.
  unfold sums_before. rewrite seq_S, fmap_app, list_to_set_app_L. simpl.
  set_solver.
Qed.

Lemma Inv_init : Inv lines l 0 (init lines).
Proof.
  repeat split; simpl; try done; lia.
Qed.

Lemma step_Inv i s :
  can_draw lines l i -> Inv lines l i s ->
  (repeated l i /\ step s = Done (Return (Some (csum l i))))
  \/ (~ repeated l i /\
      exists s', step s = Continue s' /\ Inv lines l (S i) s').
Proof.
  intros Hdraw (Hsum & Hseen & Hpos).
  destruct (pos_next i _ Hdraw Hpos) as (c' & Hnext & Hpos').
  unfold step. rewrite Hnext, Hsum, Hseen. case_decide as Hin.
  - left. split; [|done]. by apply elem_of_sums_before.
  - right. split; [intros Hr; by apply Hin, elem_of_sums_before|].
    eexists. split; [done|]. repeat split; simpl; [|done].
    by rewrite sums_before_S.
Qed.

Lemma iterate_Inv i s :
  (forall i', i' < i -> can_draw lines l i') ->
  iterate i (init lines) = Some s ->
  Inv lines l i s /\ forall i', i' < i -> ~ repeated l i'.
Proof.
  revert s. induction i as [|i IH]; intros s Hdraw.
  - intros H. simplify_eq/=. split; [apply Inv_init | lia].
  - rewrite iterate_S_r.
    destruct (iterate i (init lines)) as [s1|] eqn:Hi; [|done].
    intros H. simpl in H. unfold advance in H.
    destruct (IH s1) as [HInv Hno]; [auto with lia | done |].
    destruct (step_Inv i s1) as [[_ Hs]|(Hnr & s' & Hs & HInv')];
      [auto with lia | done | ..]; rewrite Hs in H; [done|].
    simplify_eq. split; [done|]. intros i' Hi'.
    destruct (decide (i' = i)) as [->|]; [done | apply Hno; lia].
Qed.

Lemma iterate_reach i :
  (forall i', i' < i -> can_draw lines l i') ->
  (forall i', i' < i -> ~ repeated l i') ->
  exists s, iterate i (init lines) = Some s /\ Inv lines l i s.
Proof.
  induction i as [|i IH]; intros Hdraw Hno.
  - exists (init lines). split; [done | apply Inv_init].
  - destruct IH as (s1 & Hi & HInv); [auto with lia..|].
    destruct (step_Inv i s1) as [[Hr _]|(_ & s' & Hs & HInv')];
      [auto with lia | done | ..].
    + destruct (Hno i); [lia | done].
    + exists s'. split; [|done]. rewrite iterate_S_r, Hi. simpl.
      unfold advance. by rewrite Hs.
Qed.

End Cycle.

(** ** Consequences for the result of a call *)

Lemma repeated_pos l k : repeated l k -> 0 < k.
Proof. intros (j & Hj & _). lia. Qed.

(** The call returns the first repeated sum as soon as the draws up to
    the one of index [k] succeed. *)
Lemma returns_first_repeat lines l k fuel :
  parses (take (length l) lines) l ->
  (forall i, i <= k -> can_draw lines l i) ->
  first_repeat l k -> k < fuel ->
  find_repeated_frequency fuel lines = Some (Return (Some (csum l k))).
Proof.
  intros Hparse Hdraw [Hrep Hfirst] Hfuel.
  destruct (iterate_reach lines l Hparse k) as (s & Hk & HInv);
    [auto with lia | done |].
  destruct (step_Inv lines l Hparse k s) as [[_ Hs]|[Hnr _]];
    [auto with lia | done | | done].
  by apply (loop_done k fuel _ s).
Qed.

(** Whatever the call ends with while the draws succeed is the first
    repeated sum. *)
Lemma ends_first_repeat lines l fuel r :
  parses (take (length l) lines) l ->
  (forall i, i < fuel -> can_draw lines l i) ->
  find_repeated_frequency fuel lines = Some r ->
  exists k, k < fuel /\ first_repeat l k /\ r = Return (Some (csum l k)).
Proof.
  intros Hparse Hdraw Hr.
  apply loop_Some in Hr as (k & s & Hlt & Hk & Hs).
  destruct (iterate_Inv lines l Hparse k s) as [HInv Hno];
    [auto with lia | done |].
  destruct (step_Inv lines l Hparse k s) as [[Hrep Hs']|(_ & s' & Hs' & _)];
    [auto with lia | done | |]; rewrite Hs in Hs'; [|done].
  exists k. repeat split; [done.. |]. by simplify_eq.
Qed.

Lemma parses_prefix lines l : parses lines l -> parses (take (length l) lines) l.
Proof.
  intros H. rewrite take_ge; [done|]. by rewrite (Forall2_length _ _ _ H).
Qed.

Lemma can_draw_all lines l i : parses lines l -> l <> [] -> can_draw lines l i.
Proof. intros H Hne. right. split; [by apply Forall2_length in H | done]. Qed.

(** The sums up to index [i] depend on the elements before [i] only. *)
Lemma csum_ext l1 l2 i :
  (forall j, j < i -> cyc l1 j = cyc l2 j) -> csum l1 i = csum l2 i.
Proof.
  induction i as [|i IH]; intros H; simpl; [done|].
  rewrite IH by auto with lia. rewrite H by lia. done.
Qed.

Lemma first_repeat_ext l1 l2 k :
  (forall j, j < k -> cyc l1 j = cyc l2 j) ->
  first_repeat l1 k -> first_repeat l2 k.
Proof.
  intros H. assert (forall i, i <= k -> csum l1 i = csum l2 i) as Hc.
  { intros i Hi. apply csum_ext. auto with lia. }
  intros [(j & Hj & Hrep) Hfirst]. split.
  - exists j. split; [done|]. rewrite <- !Hc by lia. done.
  - intros k' Hk' (j' & Hj' & Hrep'). apply (Hfirst k' Hk').
    exists j'. split; [done|]. rewrite !Hc by lia. done.
Qed.

Lemma cyc_small l i : i < length l -> cyc l i = default 0%Z (l !! i).
Proof. intros H. unfold cyc. by rewrite Nat.mod_small. Qed.

(** A sequence that begins with the first [k] elements of [l] has the
    same first [k] cyclic elements. *)
Lemma cyc_take_app l l' k j :
  j < k -> k <= length l -> cyc (take k l ++ l') j = cyc l j.
Proof.
  intros Hj Hk. rewrite !cyc_small.
  - rewrite lookup_app_l by (rewrite length_take; lia).
    by rewrite lookup_take_lt.
  - lia.
  - rewrite length_app, length_take. lia.
Qed.

(** ** Integer literals are accepted by [int] *)

Module LiteralFacts.

Import PyInt Literal.











End LiteralFacts.

Lemma loop_more fuel n s r : loop fuel s = Some r -> loop (fuel + n) s = Some r.
Proof.
  revert s. induction fuel as [|fuel IH]; intros s; simpl; [done|].
  destruct (step s); [apply IH | done].
Qed.


(** ** The properties of the specification *)

(** C6, as amended: for the input [+1, -2, +3, +1] the call returns 2; the
    cumulative sums examined are 0, 1, -1, 2, 3, 4, 2 and 2 is the first
    of them to repeat. *)
Theorem repeat_2_example (fuel : nat) :
  find_repeated_frequency (7 + fuel) input_repeat_2 = Some (Return (Some 2%Z))
  /\ examined 7 (init input_repeat_2) = [0; 1; -1; 2; 3; 4; 2]%Z.
Proof.
  split; [|by vm_compute].
  apply loop_more. by vm_compute.
Qed.

(** C6, as stated, fails: the sixth cumulative sum is 4, not 1. *)
Lemma repeat_2_sums_not_as_listed :
  ~ (find_repeated_frequency 7 input_repeat_2 = Some (Return (Some 2%Z))
     /\ examined 7 (init input_repeat_2) = [0; 1; -1; 2; 3; 1; 2]%Z).
Proof. intros [_ H]. vm_compute in H. discriminate. Qed.

(** C7: for the input [+1, -1] the call returns 0, the initial value: the
    sums examined are 0, 1, 0. *)
Theorem back_to_0_example (fuel : nat) :
  find_repeated_frequency (3 + fuel) input_back_to_0 = Some (Return (Some 0%Z))
  /\ examined 3 (init input_back_to_0) = [0; 1; 0]%Z.
Proof.
  split; [|by vm_compute].
  apply loop_more. by vm_compute.
Qed.

(** C2, as amended: on the empty input the cycled iterator is exhausted at
    the first draw, no turn of the loop is completed, and the call ends
    at once, returning [None]; it does not stall. *)
Theorem empty_input_ends (r : result) :
  cycle_next (cycle []) = StopIteration
  /\ iterate 1 (init []) = None
  /\ (exec (init []) r <-> r = Return None).
Proof.
  split; [done|]. split; [done|]. split.
  - intros H. apply (exec_det (init []) r (Return None) H). by apply exec_done.
  - intros ->. by apply exec_done.
Qed.

(** C2, as stated, fails: the call on the empty input does return. *)
Lemma empty_input_no_stall :
  ~ (forall fuel, find_repeated_frequency fuel [] = None).
Proof. intros H. specialize (H 1). discriminate. Qed.

(** C10: on the empty input the call returns Python's [None] at the first
    turn, whatever the bound, and the script prints it. *)
Theorem empty_input_returns_None (fuel : nat) :
  find_repeated_frequency (S fuel) [] = Some (Return None)
  /\ program (S fuel) (Some []) = Some (inr (line "None")).
Proof. split; reflexivity. Qed.



(** C3: at the start of every turn the set [seen] holds exactly the sums
    examined at the earlier turns; it only grows from turn to turn; no
    earlier turn found its sum in the set, and the turn that does find it
    returns it. *)
Theorem seen_invariant (lines : list string) (i : nat) (s : state) :
  iterate i (init lines) = Some s ->
  seen s = list_to_set (examined i (init lines))
  /\ (forall j s', j <= i -> iterate j (init lines) = Some s' ->
                   seen s' ⊆ seen s)
  /\ (forall j s', j < i -> iterate j (init lines) = Some s' ->
                   sum s' ∉ seen s')
  /\ (sum s ∈ seen s ->
      forall n c, cycle_next (it s) = Yield n c ->
                  find_repeated_frequency (S i) lines
                  = Some (Return (Some (sum s)))).
Proof.
  intros Hi. repeat split.
  - rewrite (seen_examined _ _ _ Hi). simpl. set_solver.
  - intros j s' Hle Hj. by apply (seen_mono j i (init lines)).
  - intros j s' Hlt Hj. by apply (earlier_fresh i j (init lines) s).
  - intros Hin n c Hnext. apply (loop_done i _ _ s); [done | | lia].
    unfold step. rewrite Hnext. by rewrite decide_True.
Qed.

Lemma seen_invariant_witness :
  let s := State 0%Z ({[1%Z]} ∪ ({[0%Z]} ∪ ∅)) (FirstPass [] [1; -1]%Z) in
  iterate 2 (init input_back_to_0) = Some s
  /\ seen s = list_to_set (examined 2 (init input_back_to_0))
  /\ (0%Z ∈ seen s ->
      forall n c, cycle_next (it s) = Yield n c ->
                  find_repeated_frequency 3 input_back_to_0
                  = Some (Return (Some 0%Z))).
Proof.
  intros s.
  assert (iterate 2 (init input_back_to_0) = Some s) as Hi
      by (vm_compute; reflexivity).
  split; [exact Hi|].
  destruct (seen_invariant input_back_to_0 2 s Hi) as (H1 & _ & _ & H4).
  split; [exact H1 | exact H4].
Defined.

Lemma cyc_Forall (P : Z -> Prop) l i : Forall P l -> l <> [] -> P (cyc l i).
Proof.
  intros Hall Hne. unfold cyc.
  assert (i mod length l < length l) as Hlt.
  { apply Nat.mod_upper_bound. by destruct l. }
  destruct (lookup_lt_is_Some_2 l _ Hlt) as [x Hx]. rewrite Hx. simpl.
  by apply (Forall_lookup_1 P l (i mod length l) x Hall).
Qed.

Lemma csum_increasing l j k :
  Forall (fun n => (0 < n)%Z) l -> l <> [] -> j < k -> (csum l j < csum l k)%Z.
Proof.
  intros Hall Hne. induction 1 as [|k _ IH]; simpl.
  - pose proof (cyc_Forall _ l j Hall Hne). simpl in *. lia.
  - pose proof (cyc_Forall _ l k Hall Hne). simpl in *. lia.
Qed.

Lemma parses_back_to_0 : parses input_back_to_0 [1; -1]%Z.
Proof. repeat constructor. Qed.




(** C4: when the first repeated sum has index [k] below the length of the
    sequence, the call returns the same value on the whole input, on its
    first [k] lines alone, on these [k] lines followed by any other
    integers, and on the first [k + 1] lines followed by anything at all:
    nothing past that prefix of the first pass is looked at. *)
Theorem prefix_suffices (lines : list string) (l : list Z) (k fuel : nat) :
  parses lines l -> l <> [] -> first_repeat l k -> k < length l -> k < fuel ->
  let v := Some (Return (Some (csum l k))) in
  find_repeated_frequency fuel lines = v
  /\ find_repeated_frequency fuel (take k lines) = v
  /\ (forall more l', parses more l' ->
                     find_repeated_frequency fuel (take k lines ++ more) = v)
  /\ (forall rest, find_repeated_frequency fuel (take (S k) lines ++ rest) = v).
Proof.
  intros Hparse Hne Hk Hlen Hfuel v. subst v.
  assert (0 < k) as Hpos by (apply (repeated_pos l), Hk).
  assert (forall more l', parses more l' ->
            find_repeated_frequency fuel (take k lines ++ more)
            = Some (Return (Some (csum l k)))) as Hmore.
  { intros more l' Hmore.
    assert (forall j, j < k -> cyc l j = cyc (take k l ++ l') j) as Hcyc.
    { intros j Hj. symmetry. apply cyc_take_app; lia. }
    rewrite (csum_ext l (take k l ++ l') k Hcyc).
    assert (parses (take k lines ++ more) (take k l ++ l')) as Hp.
    { apply Forall2_app; [by apply Forall2_take | done]. }
    apply returns_first_repeat; auto using parses_prefix.
    - intros i _. apply can_draw_all; [done|].
      destruct l; [done|]. by destruct k; [lia|].
    - by apply (first_repeat_ext l). }
  split; [|split; [|split; [done|]]].
  - apply returns_first_repeat; auto using parses_prefix, can_draw_all.
  - rewrite <- (app_nil_r (take k lines)). apply (Hmore [] []). constructor.
  - intros rest.
    assert (length lines = length l) as Hll by apply (Forall2_length _ _ _ Hparse).
    assert (length (take (S k) l) = S k) as Hl2 by (rewrite length_take; lia).
    assert (forall j, j < k -> cyc l j = cyc (take (S k) l) j) as Hcyc.
    { intros j Hj. symmetry. rewrite <- (app_nil_r (take (S k) l)).
      apply cyc_take_app; lia. }
    rewrite (csum_ext l (take (S k) l) k Hcyc).
    apply returns_first_repeat; [| |by apply (first_repeat_ext l)|done].
    + rewrite Hl2, take_app_le by (rewrite length_take; lia).
      rewrite take_take, Nat.min_id. by apply Forall2_take.
    + intros i Hi. left. lia.
Qed.

Lemma prefix_suffices_witness :
  parses input_three [1; -1; 5]%Z /\ [1; -1; 5]%Z <> []
  /\ first_repeat [1; -1; 5]%Z 2 /\ 2 < length [1; -1; 5]%Z /\ 2 < 3
  /\ find_repeated_frequency 3 input_three = Some (Return (Some 0%Z))
  /\ find_repeated_frequency 3 (take 2 input_three) = Some (Return (Some 0%Z))
  /\ find_repeated_frequency 3 input_late_garbage = Some (Return (Some 0%Z)).
Proof.
  assert (parses input_three [1; -1; 5]%Z) as Hp by repeat constructor.
  assert ([1; -1; 5]%Z <> []) as Hne by discriminate.
  assert (first_repeat [1; -1; 5]%Z 2) as Hk.
  { split.
    - exists 0. split; [lia | reflexivity].
    - intros k' Hk' (j & Hj & He).
      destruct k' as [|[|k']]; [lia | | lia].
      assert (j = 0) as -> by lia. vm_compute in He. discriminate. }
  assert (2 < length [1; -1; 5]%Z) as Hlen by (simpl; lia).
  assert (2 < 3) as Hfuel by lia.
  destruct (prefix_suffices input_three [1; -1; 5]%Z 2 3 Hp Hne Hk Hlen Hfuel)
    as (H1 & H2 & _ & H4).
  repeat (split; [assumption|]).
  exact (H4 [line "foo"]).
Defined.

(** C5, as amended: on a non-empty input of zeros only, the call ends at
    the second turn and returns 0, the sum 0 being repeated at once; the
    inputs on which the call never returns are those whose cumulative
    sums never repeat, such as the ones with positive elements only. *)
Theorem all_zero_returns_0 (lines : list string) (l : list Z) :
  parses lines l -> l <> [] ->
  (Forall (fun n => n = 0%Z) l ->
   forall fuel,
     find_repeated_frequency (2 + fuel) lines = Some (Return (Some 0%Z)))
  /\ (Forall (fun n => (0 < n)%Z) l ->
      forall fuel, find_repeated_frequency fuel lines = None).
Proof.
  intros Hparse Hne. split.
  - intros Hzero fuel.
    assert (csum l 1 = 0%Z) as H1.
    { simpl. by rewrite (cyc_Forall _ l 0 Hzero Hne). }
    rewrite <- H1.
    apply returns_first_repeat; auto using parses_prefix, can_draw_all; [|lia].
    split.
    + exists 0. split; [lia | by rewrite H1].
    + intros k' Hk' Hr. apply repeated_pos in Hr. lia.
  - intros Hpos fuel.
    destruct (find_repeated_frequency fuel lines) as [r|] eqn:Hr; [|done].
    apply (ends_first_repeat lines l) in Hr
        as (k & _ & [(j & Hj & He) _] & _);
      auto using parses_prefix, can_draw_all.
    pose proof (csum_increasing l j k Hpos Hne Hj). lia.
Qed.

Lemma all_zero_returns_0_witness :
  (parses input_zero [0%Z] /\ [0%Z] <> []
   /\ Forall (fun n => n = 0%Z) [0%Z]
   /\ find_repeated_frequency 2 input_zero = Some (Return (Some 0%Z)))
  /\ (parses input_one [1%Z] /\ [1%Z] <> []
      /\ Forall (fun n => (0 < n)%Z) [1%Z]
      /\ find_repeated_frequency 1000 input_one = None).
Proof.
  split.
  2:{ assert (parses input_one [1%Z]) as Hp by repeat constructor.
      assert ([1%Z] <> []) as Hne by discriminate.
      assert (Forall (fun n => (0 < n)%Z) [1%Z]) as Hz
          by (repeat constructor; lia).
      repeat (split; [assumption|]).
      exact (proj2 (all_zero_returns_0 input_one [1%Z] Hp Hne) Hz 1000). }
  assert (parses input_zero [0%Z]) as Hp by repeat constructor.
  assert ([0%Z] <> []) as Hne by discriminate.
  assert (Forall (fun n => n = 0%Z) [0%Z]) as Hz by repeat constructor.
  repeat (split; [assumption|]).
  exact (proj1 (all_zero_returns_0 input_zero [0%Z] Hp Hne) Hz 0).
Defined.

(** C5, as stated, fails: on the input [0] the call returns. *)
Lemma all_zero_terminates :
  ~ (forall fuel, find_repeated_frequency fuel input_zero = None).
Proof. intros H. specialize (H 2). vm_compute in H. discriminate. Qed.

(** ** When the script aborts *)


Lemma first_bad_length lines j pre :
  first_bad lines j pre -> length pre = j /\ parses (take (length pre) lines) pre.
Proof.
  intros [Hpre (ln & Hj & _)].
  assert (length pre = j) as Hlen.
  { rewrite <- (Forall2_length _ _ _ Hpre), length_take.
    apply lookup_lt_Some in Hj. lia. }
  split; [done|]. by rewrite Hlen.
Qed.

(** The turn that draws the first rejected line ends with [ValueError]. *)
Lemma step_first_bad lines j pre s :
  first_bad lines j pre -> Inv lines pre j s ->
  step s = Done (Raised ValueError).
Proof.
  intros Hbad (_ & _ & Hpos).
  destruct (first_bad_length _ _ _ Hbad) as [Hlen _].
  destruct Hbad as [_ (ln & Hj & Hln)].
  unfold step. destruct (it s) as [src saved | saved cur].
  - destruct Hpos as (_ & -> & _). rewrite (drop_S _ _ _ Hj). simpl.
    by rewrite Hln.
  - destruct Hpos as (_ & Hgt & _). lia.
Qed.



Lemma program_aborts fuel lines e :
  program fuel (Some lines) = Some (inl e)
  <-> find_repeated_frequency fuel lines = Some (Raised e).
Proof.
  simpl. destruct (find_repeated_frequency fuel lines) as [[v|e']|];
    split; intros H; congruence.
Qed.


Lemma first_bad_early_garbage : first_bad input_early_garbage 1 [1%Z].
Proof.
  split; [repeat constructor|]. exists (line "foo"). split; reflexivity.
Qed.



(** ** Further properties of the loop *)

(** *** One pass of the cycle adds the total of the sequence *)

Lemma total_app l1 l2 : total (l1 ++ l2) = (total l1 + total l2)%Z.
Proof.
  induction l1 as [|x l1 IH]; simpl; [done|]. rewrite IH. lia.
Qed.

Lemma csum_take l i : i <= length l -> csum l i = total (take i l).
Proof.
  induction i as [|i IH]; intros Hi; [by destruct l|].
  destruct (lookup_lt_is_Some_2 l i) as [x Hx]; [lia|].
  simpl csum. rewrite IH by lia. rewrite cyc_small by lia.
  rewrite (take_S_r _ _ _ Hx), total_app, Hx. simpl. lia.
Qed.

Lemma csum_length l : csum l (length l) = total l.
Proof. rewrite csum_take by done. by rewrite take_ge. Qed.

Lemma cyc_shift l i : cyc l (length l + i) = cyc l i.
Proof.
  unfold cyc. replace (length l + i) with (i + 1 * length l) by lia.
  by rewrite Nat.Div0.mod_add.
Qed.

Lemma csum_shift l i : csum l (length l + i) = (total l + csum l i)%Z.
Proof.
  induction i as [|i IH].
  - rewrite Nat.add_0_r, csum_length. simpl. lia.
  - replace (length l + S i) with (S (length l + i)) by lia.
    simpl. rewrite IH, cyc_shift. lia.
Qed.

Lemma csum_periods l q r :
  csum l (q * length l + r) = (Z.of_nat q * total l + csum l r)%Z.
Proof.
  induction q as [|q IH]; [simpl; lia|].
  replace (S q * length l + r) with (length l + (q * length l + r)) by lia.
  rewrite csum_shift, IH. lia.
Qed.

(** *** The first repeat, when some sum repeats *)

Lemma repeated_dec l k : {repeated l k} + {~ repeated l k}.
Proof.
  destruct (decide (csum l k ∈ sums_before l k)) as [H|H].
  - left. by apply elem_of_sums_before.
  - right. intros Hr. by apply H, elem_of_sums_before.
Qed.

Lemma first_repeat_exists l k :
  repeated l k -> exists k0, k0 <= k /\ first_repeat l k0.
Proof.
  induction k as [k IH] using lt_wf_ind. intros Hk.
  assert (forall n, (forall k', k' < n -> ~ repeated l k')
                    \/ exists k', k' < n /\ repeated l k') as Hscan.
  { induction n as [|n [IHn|(k' & Hlt & Hr)]].
    - left. lia.
    - destruct (repeated_dec l n) as [Hr|Hn].
      + right. exists n. split; [lia | done].
      + left. intros k' Hk'. destruct (decide (k' = n)) as [->|]; [done|].
        apply IHn. lia.
    - right. exists k'. split; [lia | done]. }
  destruct (Hscan k) as [Hnone|(k' & Hlt & Hr)].
  - exists k. split; [lia|]. by split.
  - destruct (IH k' Hlt Hr) as (k0 & Hle & Hfirst).
    exists k0. split; [lia | done].
Qed.

Lemma repeated_length_of_zero_total l :
  l <> [] -> total l = 0%Z -> repeated l (length l).
Proof.
  intros Hne Hz. exists 0. split; [by destruct l; simpl; [|lia]|].
  by rewrite csum_length.
Qed.


(** X1: on an input of integers, at the start of turn [i] the variable
    [sum] is the sum of the first [i] elements taken cyclically, [seen] is
    the set of the sums of fewer elements, and the element drawn at that
    turn is the one of index [i mod len]. *)
Theorem running_sum_invariant (lines : list string) (l : list Z)
    (i : nat) (s : state) :
  parses lines l -> l <> [] ->
  iterate i (init lines) = Some s ->
  sum s = csum l i
  /\ seen s = sums_before l i
  /\ exists c', cycle_next (it s) = Yield (cyc l i) c'.
Proof.
  intros Hparse Hne Hi.
  destruct (iterate_Inv lines l (parses_prefix _ _ Hparse) i s)
    as [(Hsum & Hseen & Hpos) _]; [auto using can_draw_all | done |].
  split; [done|]. split; [done|].
  destruct (pos_next lines l (parses_prefix _ _ Hparse) i (it s))
    as (c' & Hnext & _); [by apply can_draw_all | done |].
  by exists c'.
Qed.

Lemma running_sum_invariant_witness :
  let s := State 0%Z ({[1%Z]} ∪ ({[0%Z]} ∪ ∅)) (FirstPass [] [1; -1]%Z) in
  parses input_back_to_0 [1; -1]%Z /\ [1; -1]%Z <> []
  /\ iterate 2 (init input_back_to_0) = Some s
  /\ sum s = csum [1; -1]%Z 2
  /\ seen s = sums_before [1; -1]%Z 2
  /\ exists c', cycle_next (it s) = Yield (cyc [1; -1]%Z 2) c'.
Proof.
  intros s.
  assert ([1; -1]%Z <> []) as Hne by discriminate.
  assert (iterate 2 (init input_back_to_0) = Some s) as Hi
      by (vm_compute; reflexivity).
  split; [exact parses_back_to_0|]. split; [exact Hne|]. split; [exact Hi|].
  exact (running_sum_invariant input_back_to_0 [1; -1]%Z 2 s
           parses_back_to_0 Hne Hi).
Defined.

Lemma terminates_repeated lines l :
  parses lines l -> l <> [] ->
  (terminates lines <-> exists k, repeated l k).
Proof.
  intros Hparse Hne. split.
  - intros (fuel & r & Hr).
    destruct (ends_first_repeat lines l fuel r)
      as (k & _ & [Hk _] & _); auto using parses_prefix, can_draw_all.
    by exists k.
  - intros [k Hk]. destruct (first_repeat_exists l k Hk) as (k0 & _ & Hk0).
    exists (S k0), (Return (Some (csum l k0))).
    apply returns_first_repeat; auto using parses_prefix, can_draw_all.
Qed.

(** X2: on a non-empty input of integers the call ends if and only if
    some cumulative sum of the cyclic summation occurs twice; when none
    does, it runs out of every bound. *)
Theorem terminates_iff_repeat (lines : list string) (l : list Z) :
  parses lines l -> l <> [] ->
  (terminates lines <-> exists k, repeated l k)
  /\ ((forall fuel, find_repeated_frequency fuel lines = None)
      <-> forall k, ~ repeated l k).
Proof.
  intros Hparse Hne.
  pose proof (terminates_repeated lines l Hparse Hne) as Hiff.
  split; [done|]. split.
  - intros Hnone k Hk.
    destruct (proj2 Hiff (ex_intro _ k Hk)) as (fuel & r & Hr).
    by rewrite Hnone in Hr.
  - intros Hno fuel.
    destruct (find_repeated_frequency fuel lines) as [r|] eqn:Hr; [|done].
    destruct (proj1 Hiff) as [k Hk]; [by exists fuel, r|]. by destruct (Hno k).
Qed.

Lemma terminates_iff_repeat_witness :
  parses input_back_to_0 [1; -1]%Z /\ [1; -1]%Z <> []
  /\ (exists k, repeated [1; -1]%Z k)
  /\ terminates input_back_to_0.
Proof.
  assert ([1; -1]%Z <> []) as Hne by discriminate.
  assert (exists k, repeated [1; -1]%Z k) as Hk.
  { exists 2, 0. split; [lia | reflexivity]. }
  split; [exact parses_back_to_0|]. split; [exact Hne|]. split; [exact Hk|].
  exact (proj2 (proj1 (terminates_iff_repeat input_back_to_0 [1; -1]%Z
                         parses_back_to_0 Hne)) Hk).
Defined.

Lemma index_split n i : 0 < n -> i = (i / n) * n + i mod n /\ i mod n < n.
Proof.
  intros Hn. split; [|apply Nat.mod_upper_bound; lia].
  rewrite (Nat.div_mod_eq i n) at 1. lia.
Qed.

(** Two first-pass prefix sums that differ by a multiple of the total
    give a cumulative sum that occurs twice. *)
Lemma congruent_repeats l r r' :
  r < r' -> r' < length l ->
  (total l | csum l r' - csum l r)%Z -> exists k, repeated l k.
Proof.
  intros Hr Hr' [c Hc].
  destruct (decide (0 <= c)%Z) as [Hpos|Hneg].
  - pose proof (csum_periods l (Z.to_nat c) r) as Hp.
    rewrite Z2Nat.id in Hp by done.
    destruct (decide (c = 0%Z)) as [->|Hc0].
    + exists r', r. split; [done | lia].
    + exists (Z.to_nat c * length l + r), r'. split; [nia | lia].
  - pose proof (csum_periods l (Z.to_nat (- c)) r') as Hp.
    rewrite Z2Nat.id in Hp by lia.
    exists (Z.to_nat (- c) * length l + r'), r. split; [nia | lia].
Qed.

(** X3: on a non-empty input of integers with total [T], the call ends if
    and only if [T] is 0 or two prefix sums of the first pass differ by a
    multiple of [T]. *)
Theorem terminates_iff_congruent (lines : list string) (l : list Z) :
  parses lines l -> l <> [] ->
  (terminates lines
   <-> total l = 0%Z
       \/ exists r r', r < r' /\ r' < length l /\
                       (total l | total (take r' l) - total (take r l))%Z).
Proof.
  intros Hparse Hne.
  rewrite (terminates_repeated lines l Hparse Hne).
  assert (0 < length l) as Hlen by (destruct l; [done | simpl; lia]).
  split.
  - intros (k & j & Hjk & He).
    destruct (decide (total l = 0%Z)) as [|HT]; [by left | right].
    destruct (index_split (length l) j Hlen) as [Ej Hj].
    destruct (index_split (length l) k Hlen) as [Ek Hk].
    set (qj := j / length l) in *. set (rj := j mod length l) in *.
    set (qk := k / length l) in *. set (rk := k mod length l) in *.
    rewrite Ej, Ek, !csum_periods in He.
    assert (rj <> rk) as Hne'.
    { intros Heq. rewrite Heq in He, Ej.
      assert (Z.of_nat qj = Z.of_nat qk) by nia. lia. }
    destruct (decide (rj < rk)) as [Hlt|Hge].
    + exists rj, rk. split; [done|]. split; [done|].
      rewrite <- !csum_take by lia.
      exists (Z.of_nat qj - Z.of_nat qk)%Z. lia.
    + exists rk, rj. split; [lia|]. split; [done|].
      rewrite <- !csum_take by lia.
      exists (Z.of_nat qk - Z.of_nat qj)%Z. lia.
  - intros [HT|(r & r' & Hr & Hr' & Hdiv)].
    + exists (length l). by apply repeated_length_of_zero_total.
    + rewrite <- !csum_take in Hdiv by lia.
      by apply (congruent_repeats l r r').
Qed.

Lemma terminates_iff_congruent_witness :
  parses input_back_to_0 [1; -1]%Z /\ [1; -1]%Z <> []
  /\ total [1; -1]%Z = 0%Z
  /\ terminates input_back_to_0.
Proof.
  assert ([1; -1]%Z <> []) as Hne by discriminate.
  assert (total [1; -1]%Z = 0%Z) as HT by reflexivity.
  split; [exact parses_back_to_0|]. split; [exact Hne|]. split; [exact HT|].
  exact (proj2 (terminates_iff_congruent input_back_to_0 [1; -1]%Z
                  parses_back_to_0 Hne) (or_introl HT)).
Defined.

(** X4: when the integers of a non-empty input add up to 0, the call
    returns within [len + 1] turns: the repeat it finds has an index of at
    most [len], the number of lines. *)
Theorem zero_total_returns_in_one_pass (lines : list string) (l : list Z) :
  parses lines l -> l <> [] -> total l = 0%Z ->
  exists k, 0 < k <= length l /\ first_repeat l k
            /\ find_repeated_frequency (S (length l)) lines
               = Some (Return (Some (csum l k))).
Proof.
  intros Hparse Hne HT.
  destruct (first_repeat_exists l (length l)) as (k & Hle & Hk);
    [by apply repeated_length_of_zero_total|].
  exists k. split; [|split; [done|]].
  - split; [apply (repeated_pos l), Hk | done].
  - apply returns_first_repeat; auto using parses_prefix, can_draw_all.
    lia.
Qed.

Lemma zero_total_returns_in_one_pass_witness :
  parses input_back_to_0 [1; -1]%Z /\ [1; -1]%Z <> []
  /\ total [1; -1]%Z = 0%Z
  /\ exists k, 0 < k <= 2 /\ first_repeat [1; -1]%Z k
               /\ find_repeated_frequency 3 input_back_to_0
                  = Some (Return (Some (csum [1; -1]%Z k))).
Proof.
  assert ([1; -1]%Z <> []) as Hne by discriminate.
  assert (total [1; -1]%Z = 0%Z) as HT by reflexivity.
  split; [exact parses_back_to_0|]. split; [exact Hne|]. split; [exact HT|].
  exact (zero_total_returns_in_one_pass input_back_to_0 [1; -1]%Z
           parses_back_to_0 Hne HT).
Defined.

Lemma seen_size_from i s0 s :
  iterate i s0 = Some s -> size (seen s) = i + size (seen s0).
Proof.
  revert s. induction i as [|i IH]; intros s.
  - intros H. by simplify_eq/=.
  - rewrite iterate_S_r. destruct (iterate i s0) as [s1|] eqn:Hi; [|done].
    intros H. simpl in H. unfold advance in H.
    destruct (step s1) as [s2|] eqn:Hs; [|done]. simplify_eq.
    apply step_seen in Hs as [Hfresh ->].
    rewrite size_union by set_solver.
    rewrite size_singleton, (IH s1 eq_refl). lia.
Qed.

(** X5: the set [seen] gains exactly one element per turn: at the start
    of turn [i] it holds [i] distinct sums, whatever the input. *)
Theorem seen_size (lines : list string) (i : nat) (s : state) :
  iterate i (init lines) = Some s -> size (seen s) = i.
Proof.
  intros Hi. rewrite (seen_size_from i _ s Hi).
  change (seen (init lines)) with (∅ : gset Z). rewrite size_empty. lia.
Qed.

Lemma seen_size_witness :
  let s := State 0%Z ({[1%Z]} ∪ ({[0%Z]} ∪ ∅)) (FirstPass [] [1; -1]%Z) in
  iterate 2 (init input_back_to_0) = Some s /\ size (seen s) = 2.
Proof.
  intros s.
  assert (iterate 2 (init input_back_to_0) = Some s) as Hi
      by (vm_compute; reflexivity).
  split; [exact Hi|]. exact (seen_size input_back_to_0 2 s Hi).
Defined.

(** X6: the result depends on the values of the lines only, not on how
    they are written: two inputs whose lines are integers with the same
    values give the same result under every bound. *)
Theorem result_depends_on_values (lines1 lines2 : list string) (l : list Z)
    (fuel : nat) :
  parses lines1 l -> parses lines2 l ->
  find_repeated_frequency fuel lines1 = find_repeated_frequency fuel lines2.
Proof.
  intros H1 H2. destruct l as [|n l].
  - inversion H1; inversion H2; by subst.
  - assert (forall la lb r,
               parses la (n :: l) -> parses lb (n :: l) ->
               find_repeated_frequency fuel la = Some r ->
               find_repeated_frequency fuel lb = Some r) as Hsame.
    { intros la lb r Ha Hb Hr.
      destruct (ends_first_repeat la (n :: l) fuel r)
        as (k & Hk & Hfirst & ->); auto using parses_prefix, can_draw_all.
      apply returns_first_repeat; auto using parses_prefix, can_draw_all. }
    destruct (find_repeated_frequency fuel lines1) as [r|] eqn:Hr1.
    + symmetry. by apply (Hsame lines1 lines2).
    + destruct (find_repeated_frequency fuel lines2) as [r|] eqn:Hr2; [|done].
      rewrite (Hsame lines2 lines1 r H2 H1 Hr2) in Hr1. done.
Qed.

Lemma result_depends_on_values_witness :
  parses input_back_to_0 [1; -1]%Z
  /\ parses [" 1 "; "-1"]%string [1; -1]%Z
  /\ find_repeated_frequency 3 input_back_to_0
     = find_repeated_frequency 3 [" 1 "; "-1"]%string.
Proof.
  assert (parses [" 1 "; "-1"]%string [1; -1]%Z) as H2 by repeat constructor.
  split; [exact parses_back_to_0|]. split; [exact H2|].
  exact (result_depends_on_values input_back_to_0 [" 1 "; "-1"]%string
           [1; -1]%Z 3 parses_back_to_0 H2).
Defined.



Lemma early_bad_line_raises lines j pre fuel :
  first_bad lines j pre -> j <= 1 -> j < fuel ->
  find_repeated_frequency fuel lines = Some (Raised ValueError).
Proof.
  intros Hbad Hj Hfuel.
  destruct (first_bad_length _ _ _ Hbad) as [Hlen Hpre].
  destruct (iterate_reach lines pre Hpre j) as (s & Hs & HInv).
  - intros i Hi. left. lia.
  - intros k Hk Hr. apply repeated_pos in Hr. lia.
  - apply (loop_done j _ _ s); [done | | done].
    by apply (step_first_bad lines j pre).
Qed.

(** X8: when the first or the second line of the input is the first one
    that is not an integer, the script always aborts with [ValueError],
    whatever the lines are: no sum can have repeated that early. *)
Theorem bad_line_in_first_two_aborts (lines : list string) (j : nat)
    (pre : list Z) (fuel : nat) :
  first_bad lines j pre -> j <= 1 -> j < fuel ->
  program fuel (Some lines) = Some (inl ValueError).
Proof.
  intros Hbad Hj Hfuel. apply program_aborts.
  by apply (early_bad_line_raises lines j pre).
Qed.

Lemma bad_line_in_first_two_aborts_witness :
  first_bad input_early_garbage 1 [1%Z] /\ 1 <= 1 /\ 1 < 2
  /\ program 2 (Some input_early_garbage) = Some (inl ValueError).
Proof.
  assert (1 <= 1) as Hj by lia. assert (1 < 2) as Hf by lia.
  split; [exact first_bad_early_garbage|]. split; [exact Hj|].
  split; [exact Hf|].
  exact (bad_line_in_first_two_aborts input_early_garbage 1 [1%Z] 2
           first_bad_early_garbage Hj Hf).
Defined.

(** X9: the lines are parsed once, in order: during the first pass the
    iterator holds the lines not yet drawn and the values drawn so far;
    after it, the loop draws from the saved values and never goes back to
    the text. *)
Theorem lines_parsed_once (lines : list string) (l : list Z)
    (i : nat) (s : state) :
  parses lines l -> l <> [] ->
  iterate i (init lines) = Some s ->
  (i <= length l -> it s = FirstPass (drop i lines) (take i l))
  /\ (length l < i -> exists cur, it s = Replay l cur).
Proof.
  intros Hparse Hne Hi.
  destruct (iterate_Inv lines l (parses_prefix _ _ Hparse) i s)
    as [(_ & _ & Hpos) _]; [auto using can_draw_all | done |].
  destruct (it s) as [src saved | saved cur].
  - destruct Hpos as (Hle & -> & ->). split; [done | lia].
  - destruct Hpos as (-> & Hgt & _). split; [lia|]. by exists cur.
Qed.

Lemma lines_parsed_once_witness :
  let s := State 0%Z ({[1%Z]} ∪ ({[0%Z]} ∪ ∅)) (FirstPass [] [1; -1]%Z) in
  parses input_back_to_0 [1; -1]%Z /\ [1; -1]%Z <> []
  /\ iterate 2 (init input_back_to_0) = Some s
  /\ (2 <= 2 -> it s = FirstPass (drop 2 input_back_to_0) (take 2 [1; -1]%Z)).
Proof.
  intros s.
  assert ([1; -1]%Z <> []) as Hne by discriminate.
  assert (iterate 2 (init input_back_to_0) = Some s) as Hi
      by (vm_compute; reflexivity).
  split; [exact parses_back_to_0|]. split; [exact Hne|]. split; [exact Hi|].
  exact (proj1 (lines_parsed_once input_back_to_0 [1; -1]%Z 2 s
                  parses_back_to_0 Hne Hi)).
Defined.

Lemma lstrip_spaces ws :
  Forall (fun c => PyInt.is_space c = true) ws -> PyInt.lstrip ws = [].
Proof. induction 1 as [|c ws Hc _ IH]; simpl; [done|]. by rewrite Hc. Qed.

(** X10: a blank line, made of white space only, is not an integer for
    [int]; so an input whose first line is blank makes the script abort
    with [ValueError] at the first turn. *)
Theorem blank_line_aborts (ws : list ascii) (rest : list string) (fuel : nat) :
  Forall (fun c => PyInt.is_space c = true) ws ->
  PyInt.int (string_of_list_ascii ws) = None
  /\ program (S fuel) (Some (string_of_list_ascii ws :: rest))
     = Some (inl ValueError).
Proof.
  intros Hws.
  assert (PyInt.int (string_of_list_ascii ws) = None) as Hint.
  { unfold PyInt.int, PyInt.strip.
    by rewrite list_ascii_of_string_of_list_ascii, lstrip_spaces. }
  split; [done|].
  apply program_aborts, (early_bad_line_raises _ 0 []); [|lia..].
  split; [constructor|]. by exists (string_of_list_ascii ws).
Qed.

Lemma blank_line_aborts_witness :
  Forall (fun c => PyInt.is_space c = true) [" "%char; "010"%char]
  /\ PyInt.int (string_of_list_ascii [" "%char; "010"%char]) = None
  /\ program 1 (Some (string_of_list_ascii [" "%char; "010"%char]
                      :: input_back_to_0))
     = Some (inl ValueError).
Proof.
  assert (Forall (fun c => PyInt.is_space c = true) [" "%char; "010"%char])
    as Hws by repeat constructor.
  split; [exact Hws|].
  exact (blank_line_aborts [" "%char; "010"%char] input_back_to_0 0 Hws).
Defined.
